(** * Doris BE: GlobalMemoryArbitrator and IColumn::append_data_by_selector_impl

    A shallow embedding of
      - be/src/runtime/memory/global_memory_arbitrator.h
      - be/src/vec/columns/column_impl.h
    The arbitrator's static members become one record, the process-wide
    samples and thresholds of [MemInfo] / [PerfCounters] another, and the
    static member functions become readers of, or state transformers on, a
    [Process].  Signed 64-bit arithmetic is carried out in [Z] and reduced
    to the two's complement range after every operation. *)

From Stdlib Require Import ZArith NArith List Bool Lia Floats.
Import ListNotations.
Local Open Scope Z_scope.

(** ** int64_t *)

Module Int64.

Definition modulus : Z := 2 ^ 64.
Definition half_modulus : Z := 2 ^ 63.
Definition min_signed : Z := - half_modulus.
Definition max_signed : Z := half_modulus - 1.

(** The value a two's complement 64-bit register holds for [z]. *)
Definition wrap (z : Z) : Z := (z + half_modulus) mod modulus - half_modulus.

Definition add (a b : Z) : Z := wrap (a + b).
Definition sub (a b : Z) : Z := wrap (a - b).

Definition in_range (z : Z) : Prop := min_signed <= z <= max_signed.

Definition in_rangeb (z : Z) : bool := (min_signed <=? z) && (z <=? max_signed).

End Int64.

(** ** Collaborators read by the arbitrator *)

(** [MemInfo]'s statics, as far as this header reads them. *)
Record MemInfo : Type := mkMemInfo {
  _s_sys_mem_available : Z;
  mem_limit : Z;
  soft_mem_limit : Z;
  sys_mem_available_low_water_mark : Z;
  sys_mem_available_warning_water_mark : Z
}.

(** The static data members of [class GlobalMemoryArbitrator]. *)
Record GlobalMemoryArbitrator : Type := mkArbitrator {
  refresh_interval_memory_growth : Z;
  cache_adjust_capacity_notify : bool;
  last_periodic_refreshed_cache_capacity_adjust_weighted : float;
  last_memory_exceeded_cache_capacity_adjust_weighted : float;
  last_affected_cache_capacity_adjust_weighted : float;
  any_workload_group_exceed_limit : bool;
  memtable_memory_refresh_notify : bool;
  _process_reserved_memory : Z
}.

(** What one call of [print_log_process_usage] records: the memory state
    it was called in. *)
Record Snapshot : Type := mkSnapshot {
  snap_vm_rss : Z;
  snap_mem_info : MemInfo;
  snap_arbitrator : GlobalMemoryArbitrator
}.

(** Everything a call into the arbitrator can see: the last samples, the
    arbitrator's statics, the calling thread's own reserved bytes (kept by
    its thread context) and the diagnostic log. *)
Record Process : Type := mkProcess {
  get_vm_rss : Z;                       (* PerfCounters::get_vm_rss() *)
  mem_info : MemInfo;
  arbitrator : GlobalMemoryArbitrator;
  thread_reserved_mem : Z;
  usage_log : list Snapshot
}.

Definition set_arbitrator (a : GlobalMemoryArbitrator) (p : Process) : Process :=
  mkProcess (get_vm_rss p) (mem_info p) a (thread_reserved_mem p) (usage_log p).

Definition set_thread_reserved_mem (r : Z) (p : Process) : Process :=
  mkProcess (get_vm_rss p) (mem_info p) (arbitrator p) r (usage_log p).

Definition set_usage_log (l : list Snapshot) (p : Process) : Process :=
  mkProcess (get_vm_rss p) (mem_info p) (arbitrator p) (thread_reserved_mem p) l.


Definition set_cache_adjust_capacity_notify (b : bool) (a : GlobalMemoryArbitrator)
  : GlobalMemoryArbitrator :=
  mkArbitrator (refresh_interval_memory_growth a) b
    (last_periodic_refreshed_cache_capacity_adjust_weighted a)
    (last_memory_exceeded_cache_capacity_adjust_weighted a)
    (last_affected_cache_capacity_adjust_weighted a)
    (any_workload_group_exceed_limit a)
    (memtable_memory_refresh_notify a) (_process_reserved_memory a).

Definition set_memtable_memory_refresh_notify (b : bool) (a : GlobalMemoryArbitrator)
  : GlobalMemoryArbitrator :=
  mkArbitrator (refresh_interval_memory_growth a) (cache_adjust_capacity_notify a)
    (last_periodic_refreshed_cache_capacity_adjust_weighted a)
    (last_memory_exceeded_cache_capacity_adjust_weighted a)
    (last_affected_cache_capacity_adjust_weighted a)
    (any_workload_group_exceed_limit a)
    b (_process_reserved_memory a).

Definition set_process_reserved_memory (r : Z) (a : GlobalMemoryArbitrator)
  : GlobalMemoryArbitrator :=
  mkArbitrator (refresh_interval_memory_growth a) (cache_adjust_capacity_notify a)
    (last_periodic_refreshed_cache_capacity_adjust_weighted a)
    (last_memory_exceeded_cache_capacity_adjust_weighted a)
    (last_affected_cache_capacity_adjust_weighted a)
    (any_workload_group_exceed_limit a)
    (memtable_memory_refresh_notify a) r.

(** ** A state monad over [Process] *)

Definition M (A : Type) : Type := Process -> A * Process.

Definition ret {A : Type} (a : A) : M A := fun p => (a, p).

Definition bind {A B : Type} (c : M A) (k : A -> M B) : M B :=
  fun p => let (a, p') := c p in k a p'.

Definition gets {A : Type} (f : Process -> A) : M A := fun p => (f p, p).

Definition modify (f : Process -> Process) : M unit := fun p => (tt, f p).

Declare Scope arb_scope.
Delimit Scope arb_scope with arb.
Notation "x <- c ;; k" := (bind c (fun x => k))
  (at level 100, c at next level, right associativity) : arb_scope.
Notation "c ;;; k" := (bind c (fun _ => k))
  (at level 100, right associativity) : arb_scope.
Local Open Scope arb_scope.

(** ** Usage estimator (global_memory_arbitrator.h, lines 28-99) *)


Definition process_reserved_memory (p : Process) : Z :=
  _process_reserved_memory (arbitrator p).

Definition process_memory_usage (p : Process) : Z :=
  Int64.add (Int64.add (get_vm_rss p) (refresh_interval_memory_growth (arbitrator p)))
            (process_reserved_memory p).

Definition sys_mem_available (p : Process) : Z :=
  Int64.sub (Int64.sub (_s_sys_mem_available (mem_info p))
                       (refresh_interval_memory_growth (arbitrator p)))
            (process_reserved_memory p).

(** ** Pressure notifiers (lines 171-182)

    [notify_all] on the condition variable wakes the waiters and changes
    none of the arbitrator's data, so only the store remains. *)

Definition notify_cache_adjust_capacity : M unit :=
  modify (fun p => set_arbitrator (set_cache_adjust_capacity_notify true (arbitrator p)) p).

Definition notify_memtable_memory_refresh : M unit :=
  modify (fun p => set_arbitrator (set_memtable_memory_refresh_notify true (arbitrator p)) p).

(** ** Diagnostics *)

(** Modelled from the spec: [MemoryProfile::print_log_process_usage] is
    defined outside this header.  Following section 4.3, every call logs
    one diagnostic snapshot of the whole memory state, with no rate limit,
    and changes nothing else. *)
Definition print_log_process_usage : M unit :=
  modify (fun p =>
    set_usage_log (usage_log p ++ [mkSnapshot (get_vm_rss p) (mem_info p) (arbitrator p)]) p).

(** ** Admission gate (lines 108-138)

    [sub_thread_reserve_memory] is declared in the header and defined
    elsewhere; the two predicates are written against any implementation
    of it. *)

Section AdmissionGate.

Variable sub_thread_reserve_memory : Z -> M Z.

(** [bytes > 0 && sub_thread_reserve_memory(bytes) <= 0]: the right operand
    is evaluated only when the left one holds. *)
Definition covered_by_thread_reservation (bytes : Z) : M bool :=
  if 0 <? bytes
  then (remaining <- sub_thread_reserve_memory bytes ;; ret (remaining <=? 0))
  else ret false.

Definition is_exceed_soft_mem_limit (bytes : Z) : M bool :=
  covered <- covered_by_thread_reservation bytes ;;
  if covered then ret false
  else
    usage <- gets process_memory_usage ;;
    available <- gets sys_mem_available ;;
    info <- gets mem_info ;;
    let rt := (soft_mem_limit info <=? Int64.add usage bytes)
              || (Int64.sub available bytes <? sys_mem_available_warning_water_mark info) in
    if rt then (print_log_process_usage ;;; ret rt) else ret rt.

Definition is_exceed_hard_mem_limit (bytes : Z) : M bool :=
  covered <- covered_by_thread_reservation bytes ;;
  if covered then ret false
  else
    usage <- gets process_memory_usage ;;
    available <- gets sys_mem_available ;;
    info <- gets mem_info ;;
    let rt := (mem_limit info <=? Int64.add usage bytes)
              || (Int64.sub available bytes <? sys_mem_available_low_water_mark info) in
    if rt then (print_log_process_usage ;;; ret rt) else ret rt.

End AdmissionGate.

(** The test each predicate makes once the reservation check is over, as a
    function of the state it is made in. *)
Definition soft_limit_condition (bytes : Z) (p : Process) : bool :=
  (soft_mem_limit (mem_info p) <=? Int64.add (process_memory_usage p) bytes)
  || (Int64.sub (sys_mem_available p) bytes
      <? sys_mem_available_warning_water_mark (mem_info p)).

Definition hard_limit_condition (bytes : Z) (p : Process) : bool :=
  (mem_limit (mem_info p) <=? Int64.add (process_memory_usage p) bytes)
  || (Int64.sub (sys_mem_available p) bytes
      <? sys_mem_available_low_water_mark (mem_info p)).

(** ** Reservation ledger

    The four ledger operations are declared in the header (lines 93-95 and
    106) and defined in a translation unit that is not part of the sources
    at hand. *)

Module Ledger.

(** Modelled from the spec: the body of [reserve_process_memory] is
    missing.  Section 4.2: the unconditional counterpart of
    [try_reserve_process_memory], it always increments ReservedMemory by
    [bytes] (a fetch-add on the 64-bit atomic). *)
Definition reserve_process_memory (bytes : Z) : M bool :=
  modify (fun p =>
    set_arbitrator
      (set_process_reserved_memory (Int64.add (process_reserved_memory p) bytes)
                                   (arbitrator p)) p) ;;;
  ret true.

(** Modelled from the spec: the body of [try_reserve_process_memory] is
    missing.  Sections 3 and 4.2: check-then-increment; the increment by
    [bytes] is rejected when it would exceed a cap and accepted otherwise.
    The spec leaves the cap open (section 9), so the rejection policy
    [exceeds_cap], which sees the current state and the would-be new
    ledger value, is an argument. *)
Definition try_reserve_process_memory
  (exceeds_cap : Process -> Z -> bool) (bytes : Z) : M bool :=
  old_reserved_mem <- gets process_reserved_memory ;;
  let new_reserved_mem := Int64.add old_reserved_mem bytes in
  rejected <- gets (fun p => exceeds_cap p new_reserved_mem) ;;
  if rejected then ret false
  else
    modify (fun p =>
      set_arbitrator (set_process_reserved_memory new_reserved_mem (arbitrator p)) p) ;;;
    ret true.

(** Modelled from the spec: the body of [shrink_process_reserved] is
    missing.  Sections 3 and 4.2: decrements ReservedMemory by [bytes],
    with a floor at zero. *)
Definition shrink_process_reserved (bytes : Z) : M unit :=
  modify (fun p =>
    set_arbitrator
      (set_process_reserved_memory
         (Z.max 0 (Int64.sub (process_reserved_memory p) bytes)) (arbitrator p)) p).

(** Modelled from the spec: the body of [sub_thread_reserve_memory] is
    missing.  Section 4.2: from the calling thread's prior reservation it
    determines how much of [bytes] that reservation satisfies, consumes
    that much of the thread's reservation, drains the same amount from the
    global ledger (reserved memory turning into counted usage is a shrink,
    section 4.2), and returns the remainder that still needs a limit
    check. *)
Definition sub_thread_reserve_memory (bytes : Z) : M Z :=
  reserved <- gets thread_reserved_mem ;;
  let satisfied := Z.max 0 (Z.min bytes reserved) in
  modify (set_thread_reserved_mem (Int64.sub reserved satisfied)) ;;;
  shrink_process_reserved satisfied ;;;
  ret (Int64.sub bytes satisfied).

End Ledger.

(** ** IColumn::append_data_by_selector_impl (column_impl.h, lines 35-59) *)

Module Column.

Local Open Scope N_scope.

(** [size_t] arithmetic: unsigned, 64 bits, wrapping. *)
Definition size_t_modulus : N := 2 ^ 64.
Definition size_add (a b : N) : N := (a + b) mod size_t_modulus.
Definition size_sub (a b : N) : N := (a + size_t_modulus - b mod size_t_modulus) mod size_t_modulus.

(** The part of the [IColumn] interface the template uses.  [column.h]
    and the derived column classes are not at hand, so the operations are
    an interface: [insert_from res src n] is [res.insert_from(src, n)]. *)
Class ColumnOps (column : Type) : Type := {
  size : column -> N;
  reserve : N -> column -> column;
  insert_from : column -> column -> N -> column
}.

(** What [IColumn] promises of every derived column: reserving memory does
    not change the rows, and [insert_from] appends one row. *)
Class ColumnLaws (column : Type) `{ColumnOps column} : Prop := {
  size_reserve : forall n c, size (reserve n c) = size c;
  size_insert_from : forall res src n, size (insert_from res src n) = size res + 1
}.

Inductive ErrorCode : Type := INTERNAL_ERROR.

(** How a call ends. *)
Inductive outcome : Type :=
| Returned
| Threw (code : ErrorCode) (selector_size num_rows : N)  (* doris::Exception *)
| Aborted                                                (* a failed DCHECK *)
| OutOfBounds.                                           (* selector[i] past its end *)

Section AppendBySelector.

Context {column : Type} `{ColumnOps column}.

(** DCHECK_GE / DCHECK_LE abort in a debug build and are compiled out in
    a release build. *)
Variable dcheck_is_on : bool.

Definition DCHECK (cond : bool) : bool := negb dcheck_is_on || cond.

(** The loop [for (size_t i = begin; i < end; ++i)], whose body inserts
    row [selector[i]] of this column into [res]; [count] is the number of
    iterations left. *)
Fixpoint insert_selected (src : column) (selector : list N)
  (count : nat) (i : N) (res : column) : column * outcome :=
  match count with
  | O => (res, Returned)
  | S count' =>
      match nth_error selector (N.to_nat i) with
      | None => (res, OutOfBounds)
      | Some row => insert_selected src selector count' (i + 1) (insert_from res src row)
      end
  end.

Definition append_data_by_selector_impl (src res : column) (selector : list N)
  (begin end_ : N) : column * outcome :=
  let num_rows := size src in
  let selector_size := N.of_nat (length selector) in
  if num_rows <? selector_size then (res, Threw INTERNAL_ERROR selector_size num_rows)
  else if negb (DCHECK (begin <=? end_)) then (res, Aborted)
  else if negb (DCHECK (end_ <=? selector_size)) then (res, Aborted)
  else
    let res' := reserve (size_add (size res) (size_sub end_ begin)) res in
    insert_selected src selector (N.to_nat (end_ - begin)) begin res'.

Definition append_data_by_selector_impl_all (src res : column) (selector : list N)
  : column * outcome :=
  append_data_by_selector_impl src res selector 0 (N.of_nat (length selector)).

End AppendBySelector.

(** *** IColumn::insert_from_multi_column_impl (column_impl.h, lines 61-68) *)

Section InsertFromMultiColumn.

Context {column : Type} `{ColumnOps column}.

(** The loop [for (size_t i = 0; i < srcs.size(); ++i)], whose body inserts
    row [positions[i]] of column [srcs[i]] into this column; [count] is the
    number of iterations left.  The code indexes [positions] unchecked. *)
Fixpoint insert_from_each (srcs : list column) (positions : list N)
  (count : nat) (i : N) (this : column) : column * outcome :=
  match count with
  | O => (this, Returned)
  | S count' =>
      match nth_error srcs (N.to_nat i), nth_error positions (N.to_nat i) with
      | Some src, Some position =>
          insert_from_each srcs positions count' (i + 1) (insert_from this src position)
      | _, _ => (this, OutOfBounds)
      end
  end.

Definition insert_from_multi_column_impl (this : column) (srcs : list column)
  (positions : list N) : column * outcome :=
  let this' := reserve (size_add (size this) (N.of_nat (length srcs))) this in
  insert_from_each srcs positions (length srcs) 0 this'.

End InsertFromMultiColumn.

(** A column of 64-bit integers held in a vector. *)
#[global] Instance vector_column : ColumnOps (list Z) := {
  size c := N.of_nat (length c);
  reserve _ c := c;
  insert_from res src n := (res ++ [nth (N.to_nat n) src 0%Z])%list
}.

End Column.

(** ** Running calls *)

Definition eval {A : Type} (c : M A) (p : Process) : A := fst (c p).
Definition exec {A : Type} (c : M A) (p : Process) : Process := snd (c p).

(** [n] consecutive calls of [c]. *)
Fixpoint repeat_call (n : nat) (c : M unit) : M unit :=
  match n with
  | O => ret tt
  | S n' => (c ;;; repeat_call n' c)
  end.

(** The calls that write the reserved-memory ledger. *)
Inductive ledger_call : Type :=
| Reserve (bytes : Z)
| TryReserve (bytes : Z)
| Shrink (bytes : Z)
| SubThreadReserve (bytes : Z).

Section LedgerCalls.

Variable exceeds_cap : Process -> Z -> bool.

Definition run_call (c : ledger_call) : M unit :=
  match c with
  | Reserve bytes => (Ledger.reserve_process_memory bytes ;;; ret tt)
  | TryReserve bytes => (Ledger.try_reserve_process_memory exceeds_cap bytes ;;; ret tt)
  | Shrink bytes => Ledger.shrink_process_reserved bytes
  | SubThreadReserve bytes => (Ledger.sub_thread_reserve_memory bytes ;;; ret tt)
  end.

(** A reservation asks for a byte count, and the counter has 64 bits: the
    two incrementing calls are made with a non-negative [bytes] that the
    counter can still take.  The decrementing calls take any argument. *)
Definition call_fits (p : Process) (c : ledger_call) : Prop :=
  match c with
  | Reserve bytes | TryReserve bytes =>
      0 <= bytes /\ process_reserved_memory p + bytes <= Int64.max_signed
  | Shrink _ | SubThreadReserve _ => True
  end.

(** The states the ledger calls lead to from a start with nothing reserved. *)
Inductive reachable : Process -> Prop :=
| reachable_start (p : Process) :
    process_reserved_memory p = 0 -> reachable p
| reachable_call (p : Process) (c : ledger_call) :
    reachable p -> call_fits p c -> reachable (exec (run_call c) p).

End LedgerCalls.

(** The ledger invariant: a non-negative 64-bit value. *)
Definition ledger_inv (p : Process) : Prop :=
  0 <= process_reserved_memory p <= Int64.max_signed.

(** ** Sample states *)

Definition sample_arbitrator (growth reserved : Z) : GlobalMemoryArbitrator :=
  mkArbitrator growth false 1%float 1%float 1%float false false reserved.

(** Sampled RSS 1000, growth 50, reserved 20 (all of it by the calling
    thread), sampled available memory 5000; both limits are already
    reached. *)
Definition pressured_process : Process :=
  mkProcess 1000 (mkMemInfo 5000 1050 900 100 200) (sample_arbitrator 50 20) 20 [].

(** The same samples far below every limit, and a thread without a
    reservation. *)
Definition idle_process : Process :=
  mkProcess 1000 (mkMemInfo 5000 4000 3000 100 200) (sample_arbitrator 50 20) 0 [].

(** A cap on the ledger itself: reject when reserved memory alone would
    pass the hard limit. *)
Definition cap_at_mem_limit (p : Process) (new_reserved_mem : Z) : bool :=
  mem_limit (mem_info p) <? new_reserved_mem.

(** ** Estimates without overflow *)

(** The four 64-bit operations of [process_memory_usage] and
    [sys_mem_available] stay within [int64_t] in state [p]. *)
Definition estimates_fit (p : Process) : Prop :=
  Int64.in_range (get_vm_rss p + refresh_interval_memory_growth (arbitrator p))
  /\ Int64.in_range (get_vm_rss p + refresh_interval_memory_growth (arbitrator p)
                     + process_reserved_memory p)
  /\ Int64.in_range (_s_sys_mem_available (mem_info p)
                     - refresh_interval_memory_growth (arbitrator p))
  /\ Int64.in_range (_s_sys_mem_available (mem_info p)
                     - refresh_interval_memory_growth (arbitrator p)
                     - process_reserved_memory p).

(** State [p] with [reserved] bytes in the ledger. *)
Definition with_reserved (reserved : Z) (p : Process) : Process :=
  set_arbitrator (set_process_reserved_memory reserved (arbitrator p)) p.

(** * Properties *)

(** ** Facts about 64-bit arithmetic *)

Module Int64Facts.

Lemma wrap_small (z : Z) : Int64.in_range z -> Int64.wrap z = z.
Proof.
  unfold Int64.in_range, Int64.wrap, Int64.min_signed, Int64.max_signed,
    Int64.half_modulus, Int64.modulus.
  intros Hz. rewrite Z.mod_small; lia.
Qed.

Lemma wrap_in_range (z : Z) : Int64.in_range (Int64.wrap z).
Proof.
  unfold Int64.in_range, Int64.wrap, Int64.min_signed, Int64.max_signed,
    Int64.half_modulus, Int64.modulus.
  pose proof (Z.mod_pos_bound (z + 2 ^ 63) (2 ^ 64)). lia.
Qed.

(** Adding and then subtracting the same amount is exact modulo 2^64,
    whether or not the addition wrapped. *)
Lemma sub_add_cancel (a b : Z) : Int64.sub (Int64.add a b) b = Int64.wrap a.
Proof.
  unfold Int64.sub, Int64.add, Int64.wrap.
  replace ((a + b + Int64.half_modulus) mod Int64.modulus - Int64.half_modulus
           - b + Int64.half_modulus)
    with ((a + b + Int64.half_modulus) mod Int64.modulus - b) by lia.
  rewrite Zminus_mod_idemp_l.
  replace (a + b + Int64.half_modulus - b) with (a + Int64.half_modulus) by lia.
  reflexivity.
Qed.

Lemma add_exact (a b : Z) : Int64.in_range (a + b) -> Int64.add a b = a + b.
Proof. apply wrap_small. Qed.

Lemma sub_exact (a b : Z) : Int64.in_range (a - b) -> Int64.sub a b = a - b.
Proof. apply wrap_small. Qed.

Lemma in_rangeb_spec (z : Z) : Int64.in_rangeb z = true <-> Int64.in_range z.
Proof.
  unfold Int64.in_rangeb, Int64.in_range.
  rewrite andb_true_iff, !Z.leb_le. reflexivity.
Qed.

End Int64Facts.

(** ** Usage estimator *)

(** C4.  [process_memory_usage()] is the sampled RSS plus the growth since
    the last sample plus the reserved memory, whenever that sum (formed
    left to right, as the code does) is a 64-bit value; with RSS 1000,
    growth 50 and 20 reserved bytes it is 1070. *)
Theorem process_memory_usage_is_sum (p : Process)
  (Hpartial : Int64.in_range
     (get_vm_rss p + refresh_interval_memory_growth (arbitrator p)))
  (Htotal : Int64.in_range
     (get_vm_rss p + refresh_interval_memory_growth (arbitrator p)
      + process_reserved_memory p)) :
  process_memory_usage p
  = get_vm_rss p + refresh_interval_memory_growth (arbitrator p)
    + process_reserved_memory p
  /\ (get_vm_rss p = 1000 ->
      refresh_interval_memory_growth (arbitrator p) = 50 ->
      process_reserved_memory p = 20 ->
      process_memory_usage p = 1070).
Proof.
  assert (Hsum : process_memory_usage p
                 = get_vm_rss p + refresh_interval_memory_growth (arbitrator p)
                   + process_reserved_memory p).
  { unfold process_memory_usage.
    rewrite (Int64Facts.add_exact _ _ Hpartial).
    apply Int64Facts.add_exact, Htotal. }
  split; [exact Hsum |].
  intros Hrss Hgrowth Hreserved. rewrite Hsum, Hrss, Hgrowth, Hreserved. reflexivity.
Qed.

Lemma process_memory_usage_is_sum_witness :
  process_memory_usage pressured_process = 1000 + 50 + 20
  /\ process_memory_usage pressured_process = 1070.
Proof.
  destruct (process_memory_usage_is_sum pressured_process) as [Hsum Hscenario].
  - vm_compute. split; discriminate.
  - vm_compute. split; discriminate.
  - split; [exact Hsum | apply Hscenario; reflexivity].
Defined.

(** C5.  [sys_mem_available()] is the sampled available memory minus the
    growth since the last sample minus the reserved memory, whenever that
    difference (formed left to right) is a 64-bit value; with 5000
    available, growth 50 and 20 reserved bytes it is 4930. *)
Theorem sys_mem_available_is_difference (p : Process)
  (Hpartial : Int64.in_range
     (_s_sys_mem_available (mem_info p) - refresh_interval_memory_growth (arbitrator p)))
  (Htotal : Int64.in_range
     (_s_sys_mem_available (mem_info p) - refresh_interval_memory_growth (arbitrator p)
      - process_reserved_memory p)) :
  sys_mem_available p
  = _s_sys_mem_available (mem_info p) - refresh_interval_memory_growth (arbitrator p)
    - process_reserved_memory p
  /\ (_s_sys_mem_available (mem_info p) = 5000 ->
      refresh_interval_memory_growth (arbitrator p) = 50 ->
      process_reserved_memory p = 20 ->
      sys_mem_available p = 4930).
Proof.
  assert (Hdiff : sys_mem_available p
                  = _s_sys_mem_available (mem_info p)
                    - refresh_interval_memory_growth (arbitrator p)
                    - process_reserved_memory p).
  { unfold sys_mem_available.
    rewrite (Int64Facts.sub_exact _ _ Hpartial).
    apply Int64Facts.sub_exact, Htotal. }
  split; [exact Hdiff |].
  intros Havail Hgrowth Hreserved. rewrite Hdiff, Havail, Hgrowth, Hreserved. reflexivity.
Qed.

Lemma sys_mem_available_is_difference_witness :
  sys_mem_available pressured_process = 5000 - 50 - 20
  /\ sys_mem_available pressured_process = 4930.
Proof.
  destruct (sys_mem_available_is_difference pressured_process) as [Hdiff Hscenario].
  - vm_compute. split; discriminate.
  - vm_compute. split; discriminate.
  - split; [exact Hdiff | apply Hscenario; reflexivity].
Defined.

(** ** Reservation ledger *)

Lemma exec_bind {A B : Type} (c : M A) (k : A -> M B) (p : Process) :
  exec (bind c k) p = exec (k (eval c p)) (exec c p).
Proof. unfold exec, eval, bind. destruct (c p); reflexivity. Qed.

Lemma reserved_after_reserve (bytes : Z) (p : Process) :
  process_reserved_memory (exec (Ledger.reserve_process_memory bytes) p)
  = Int64.add (process_reserved_memory p) bytes.
Proof. reflexivity. Qed.

Lemma reserved_after_shrink (bytes : Z) (p : Process) :
  process_reserved_memory (exec (Ledger.shrink_process_reserved bytes) p)
  = Z.max 0 (Int64.sub (process_reserved_memory p) bytes).
Proof. reflexivity. Qed.

Lemma reserved_after_try_reserve (exceeds_cap : Process -> Z -> bool) (bytes : Z) (p : Process) :
  process_reserved_memory (exec (Ledger.try_reserve_process_memory exceeds_cap bytes) p)
  = if eval (Ledger.try_reserve_process_memory exceeds_cap bytes) p
    then Int64.add (process_reserved_memory p) bytes
    else process_reserved_memory p.
Proof.
  unfold Ledger.try_reserve_process_memory, exec, eval, bind, gets, modify, ret. simpl.
  destruct (exceeds_cap p _); reflexivity.
Qed.

Lemma reserved_after_sub_thread_reserve (bytes : Z) (p : Process) :
  process_reserved_memory (exec (Ledger.sub_thread_reserve_memory bytes) p)
  = Z.max 0 (Int64.sub (process_reserved_memory p)
                       (Z.max 0 (Z.min bytes (thread_reserved_mem p)))).
Proof. reflexivity. Qed.

Lemma clamped_in_ledger_range (z : Z) : 0 <= Z.max 0 (Int64.wrap z) <= Int64.max_signed.
Proof.
  pose proof (Int64Facts.wrap_in_range z) as [_ Hhi].
  unfold Int64.max_signed, Int64.half_modulus in *. lia.
Qed.

(** Every ledger call keeps the ledger a non-negative 64-bit value. *)
Lemma run_call_keeps_ledger_inv (exceeds_cap : Process -> Z -> bool)
  (p : Process) (c : ledger_call) :
  ledger_inv p -> call_fits p c -> ledger_inv (exec (run_call exceeds_cap c) p).
Proof.
  unfold ledger_inv. intros Hinv Hfits.
  assert (Hgrow : forall bytes,
             0 <= bytes /\ process_reserved_memory p + bytes <= Int64.max_signed ->
             0 <= Int64.add (process_reserved_memory p) bytes <= Int64.max_signed).
  { intros bytes [Hpos Hroom]. rewrite Int64Facts.add_exact; [lia |].
    unfold Int64.in_range, Int64.min_signed, Int64.max_signed, Int64.half_modulus in *. lia. }
  destruct c as [bytes | bytes | bytes | bytes]; simpl in Hfits; simpl run_call.
  - rewrite exec_bind. change (exec (ret tt) ?q) with q.
    rewrite reserved_after_reserve. apply Hgrow, Hfits.
  - rewrite exec_bind. change (exec (ret tt) ?q) with q.
    rewrite reserved_after_try_reserve.
    destruct (eval _ p); [apply Hgrow, Hfits | exact Hinv].
  - rewrite reserved_after_shrink. apply clamped_in_ledger_range.
  - rewrite exec_bind. change (exec (ret tt) ?q) with q.
    rewrite reserved_after_sub_thread_reserve. apply clamped_in_ledger_range.
Qed.

Lemma reachable_ledger_inv (exceeds_cap : Process -> Z -> bool) (p : Process) :
  reachable exceeds_cap p -> ledger_inv p.
Proof.
  induction 1 as [p Hzero | p c _ IH Hfits].
  - unfold ledger_inv. rewrite Hzero. vm_compute. split; discriminate.
  - apply run_call_keeps_ledger_inv; assumption.
Qed.

(** C6.  In every state reached through [reserve_process_memory],
    [try_reserve_process_memory], [shrink_process_reserved] and
    [sub_thread_reserve_memory], [process_reserved_memory()] is not
    negative; each of the four calls keeps it so; and a shrink by at least
    the current value leaves exactly zero. *)
Theorem process_reserved_memory_never_negative
  (exceeds_cap : Process -> Z -> bool) (p : Process)
  (Hreach : reachable exceeds_cap p) :
  0 <= process_reserved_memory p
  /\ (forall c : ledger_call, call_fits p c ->
        0 <= process_reserved_memory (exec (run_call exceeds_cap c) p))
  /\ (forall bytes : Z, Int64.in_range bytes -> process_reserved_memory p <= bytes ->
        process_reserved_memory (exec (Ledger.shrink_process_reserved bytes) p) = 0).
Proof.
  pose proof (reachable_ledger_inv _ _ Hreach) as Hinv.
  split; [apply Hinv | split].
  - intros c Hfits. apply (run_call_keeps_ledger_inv exceeds_cap p c Hinv Hfits).
  - intros bytes Hbytes Hle. rewrite reserved_after_shrink.
    unfold ledger_inv in Hinv.
    rewrite Int64Facts.sub_exact; [lia |].
    unfold Int64.in_range, Int64.min_signed, Int64.max_signed, Int64.half_modulus in *. lia.
Qed.

Lemma process_reserved_memory_never_negative_witness :
  0 <= process_reserved_memory
         (exec (run_call cap_at_mem_limit (Shrink 25))
            (exec (run_call cap_at_mem_limit (Reserve 10))
               (exec (Ledger.shrink_process_reserved 20) idle_process)))
  /\ process_reserved_memory
       (exec (Ledger.shrink_process_reserved 25)
          (exec (run_call cap_at_mem_limit (Reserve 10))
             (exec (Ledger.shrink_process_reserved 20) idle_process))) = 0.
Proof.
  assert (Hreach : reachable cap_at_mem_limit
                     (exec (run_call cap_at_mem_limit (Reserve 10))
                        (exec (Ledger.shrink_process_reserved 20) idle_process))).
  { apply reachable_call.
    - apply reachable_start. reflexivity.
    - vm_compute. split; discriminate. }
  destruct (process_reserved_memory_never_negative cap_at_mem_limit _ Hreach)
    as [_ [Hcall Hshrink]].
  split.
  - apply Hcall. exact I.
  - apply Hshrink; vm_compute; [split |]; discriminate.
Defined.

(** C7.  On a ledger that satisfies its invariant, reserving a
    non-negative number of bytes and shrinking by the same number right
    away leaves [process_reserved_memory()] as it was. *)
Theorem reserve_then_shrink_round_trip (p : Process) (bytes : Z)
  (Hinv : ledger_inv p) (Hbytes : 0 <= bytes) :
  process_reserved_memory
    (exec (Ledger.reserve_process_memory bytes ;;; Ledger.shrink_process_reserved bytes) p)
  = process_reserved_memory p.
Proof.
  rewrite exec_bind, reserved_after_shrink, reserved_after_reserve.
  rewrite Int64Facts.sub_add_cancel.
  unfold ledger_inv in Hinv.
  rewrite Int64Facts.wrap_small; [lia |].
  unfold Int64.in_range, Int64.min_signed, Int64.max_signed, Int64.half_modulus in *. lia.
Qed.

Lemma reserve_then_shrink_round_trip_witness :
  process_reserved_memory
    (exec (Ledger.reserve_process_memory 300 ;;; Ledger.shrink_process_reserved 300)
          pressured_process)
  = 20.
Proof.
  apply (reserve_then_shrink_round_trip pressured_process 300).
  - vm_compute. split; discriminate.
  - lia.
Defined.

(** ** Pressure notifiers *)

Lemma notify_cache_adjust_capacity_twice (p : Process) :
  exec notify_cache_adjust_capacity (exec notify_cache_adjust_capacity p)
  = exec notify_cache_adjust_capacity p.
Proof. reflexivity. Qed.

(** C8.  Any positive number of consecutive calls of
    [notify_cache_adjust_capacity()] leaves the state one call leaves, and
    that state is the starting state with [true] stored into
    [cache_adjust_capacity_notify]: nothing counts the calls, and the
    ledger, the growth, the capacity weights, the other flags, the samples
    and the log are as they were. *)
Theorem notify_cache_adjust_capacity_coalesces (n : nat) (p : Process) :
  exec (repeat_call (S n) notify_cache_adjust_capacity) p
  = exec notify_cache_adjust_capacity p
  /\ cache_adjust_capacity_notify
       (arbitrator (exec (repeat_call (S n) notify_cache_adjust_capacity) p)) = true
  /\ exec notify_cache_adjust_capacity p
     = set_arbitrator (set_cache_adjust_capacity_notify true (arbitrator p)) p
  /\ exec (repeat_call (S n) notify_cache_adjust_capacity) p
     = mkProcess (get_vm_rss p) (mem_info p)
         (mkArbitrator
            (refresh_interval_memory_growth (arbitrator p))
            true
            (last_periodic_refreshed_cache_capacity_adjust_weighted (arbitrator p))
            (last_memory_exceeded_cache_capacity_adjust_weighted (arbitrator p))
            (last_affected_cache_capacity_adjust_weighted (arbitrator p))
            (any_workload_group_exceed_limit (arbitrator p))
            (memtable_memory_refresh_notify (arbitrator p))
            (_process_reserved_memory (arbitrator p)))
         (thread_reserved_mem p) (usage_log p).
Proof.
  assert (Hsame : forall q, exec (repeat_call (S n) notify_cache_adjust_capacity) q
                            = exec notify_cache_adjust_capacity q).
  { induction n as [| n IH]; intros q.
    - reflexivity.
    - change (repeat_call (S (S n)) notify_cache_adjust_capacity)
        with (notify_cache_adjust_capacity ;;;
              repeat_call (S n) notify_cache_adjust_capacity).
      rewrite exec_bind, IH. apply notify_cache_adjust_capacity_twice. }
  split; [apply Hsame |].
  rewrite Hsame. repeat split.
Qed.

(** ** Admission gate *)

Section GateFacts.

Variable sub_thread_reserve_memory : Z -> M Z.

Lemma covered_nonpositive (bytes : Z) (p : Process) :
  bytes <= 0 -> covered_by_thread_reservation sub_thread_reserve_memory bytes p = (false, p).
Proof.
  intros Hbytes. unfold covered_by_thread_reservation.
  destruct (Z.ltb_spec 0 bytes); [lia | reflexivity].
Qed.

Lemma is_exceed_soft_mem_limit_run (bytes : Z) (p : Process) :
  is_exceed_soft_mem_limit sub_thread_reserve_memory bytes p
  = (let (covered, p1) := covered_by_thread_reservation sub_thread_reserve_memory bytes p in
     if covered then (false, p1)
     else if soft_limit_condition bytes p1
          then (true, exec print_log_process_usage p1)
          else (false, p1)).
Proof.
  unfold is_exceed_soft_mem_limit, bind.
  destruct (covered_by_thread_reservation _ bytes p) as [[|] p1]; [reflexivity |].
  unfold gets, soft_limit_condition.
  destruct (_ || _); reflexivity.
Qed.

Lemma is_exceed_hard_mem_limit_run (bytes : Z) (p : Process) :
  is_exceed_hard_mem_limit sub_thread_reserve_memory bytes p
  = (let (covered, p1) := covered_by_thread_reservation sub_thread_reserve_memory bytes p in
     if covered then (false, p1)
     else if hard_limit_condition bytes p1
          then (true, exec print_log_process_usage p1)
          else (false, p1)).
Proof.
  unfold is_exceed_hard_mem_limit, bind.
  destruct (covered_by_thread_reservation _ bytes p) as [[|] p1]; [reflexivity |].
  unfold gets, hard_limit_condition.
  destruct (_ || _); reflexivity.
Qed.

End GateFacts.

(** C9.  With [bytes <= 0] neither predicate calls
    [sub_thread_reserve_memory]: whatever that function is and whatever the
    calling thread has reserved, the result is the limit and water-mark
    test on the state the call started in, and the state changes by one
    logged snapshot when the test holds and not at all otherwise. *)
Theorem nonpositive_bytes_skip_reservation_check
  (sub_thread_reserve_memory : Z -> M Z) (bytes : Z) (p : Process)
  (Hbytes : bytes <= 0) :
  is_exceed_soft_mem_limit sub_thread_reserve_memory bytes p
  = (soft_limit_condition bytes p,
     if soft_limit_condition bytes p then exec print_log_process_usage p else p)
  /\ is_exceed_hard_mem_limit sub_thread_reserve_memory bytes p
     = (hard_limit_condition bytes p,
        if hard_limit_condition bytes p then exec print_log_process_usage p else p)
  /\ (forall reserved : Z,
        eval (is_exceed_soft_mem_limit sub_thread_reserve_memory bytes)
             (set_thread_reserved_mem reserved p)
        = eval (is_exceed_soft_mem_limit sub_thread_reserve_memory bytes) p
        /\ eval (is_exceed_hard_mem_limit sub_thread_reserve_memory bytes)
                (set_thread_reserved_mem reserved p)
           = eval (is_exceed_hard_mem_limit sub_thread_reserve_memory bytes) p).
Proof.
  assert (Hsoft : forall q, is_exceed_soft_mem_limit sub_thread_reserve_memory bytes q
            = (soft_limit_condition bytes q,
               if soft_limit_condition bytes q then exec print_log_process_usage q else q)).
  { intros q. rewrite is_exceed_soft_mem_limit_run, covered_nonpositive by exact Hbytes.
    destruct (soft_limit_condition bytes q); reflexivity. }
  assert (Hhard : forall q, is_exceed_hard_mem_limit sub_thread_reserve_memory bytes q
            = (hard_limit_condition bytes q,
               if hard_limit_condition bytes q then exec print_log_process_usage q else q)).
  { intros q. rewrite is_exceed_hard_mem_limit_run, covered_nonpositive by exact Hbytes.
    destruct (hard_limit_condition bytes q); reflexivity. }
  split; [apply Hsoft | split; [apply Hhard |]].
  intros reserved. unfold eval. rewrite !Hsoft, !Hhard. split; reflexivity.
Qed.

Lemma nonpositive_bytes_skip_reservation_check_witness :
  eval (is_exceed_soft_mem_limit Ledger.sub_thread_reserve_memory 0) pressured_process = true
  /\ eval (is_exceed_hard_mem_limit Ledger.sub_thread_reserve_memory 0) pressured_process = true
  /\ thread_reserved_mem pressured_process = 20.
Proof.
  destruct (nonpositive_bytes_skip_reservation_check
              Ledger.sub_thread_reserve_memory 0 pressured_process) as [Hsoft [Hhard _]].
  - lia.
  - unfold eval. rewrite Hsoft, Hhard. repeat split.
Defined.

Lemma hard_limit_condition_exact (bytes : Z) (p : Process) :
  Int64.in_range (process_memory_usage p + bytes) ->
  Int64.in_range (sys_mem_available p - bytes) ->
  hard_limit_condition bytes p = true
  <-> (process_memory_usage p + bytes >= mem_limit (mem_info p)
       \/ sys_mem_available p - bytes < sys_mem_available_low_water_mark (mem_info p)).
Proof.
  intros Husage Havail. unfold hard_limit_condition.
  rewrite (Int64Facts.add_exact _ _ Husage), (Int64Facts.sub_exact _ _ Havail).
  rewrite orb_true_iff, Z.leb_le, Z.ltb_lt. lia.
Qed.

Lemma process_memory_usage_in_range (p : Process) : Int64.in_range (process_memory_usage p).
Proof. apply Int64Facts.wrap_in_range. Qed.

Lemma sys_mem_available_in_range (p : Process) : Int64.in_range (sys_mem_available p).
Proof. apply Int64Facts.wrap_in_range. Qed.

(** C3.  When the request is not covered by the thread's reservation,
    [is_exceed_hard_mem_limit(bytes)] is true exactly when
    [process_memory_usage() + bytes >= mem_limit] or
    [sys_mem_available() - bytes < low_water_mark], both estimates being
    read where the predicate reads them (after the reservation check) and
    the two 64-bit operations not overflowing.  For [bytes = 0] and the
    available memory at or above the low water mark, the result is true
    when the usage has reached [mem_limit] and false when it is below. *)
Theorem is_exceed_hard_mem_limit_iff
  (sub_thread_reserve_memory : Z -> M Z) (bytes : Z) (p : Process)
  (Hnot_covered :
     eval (covered_by_thread_reservation sub_thread_reserve_memory bytes) p = false)
  (Husage : Int64.in_range
     (process_memory_usage
        (exec (covered_by_thread_reservation sub_thread_reserve_memory bytes) p) + bytes))
  (Havail : Int64.in_range
     (sys_mem_available
        (exec (covered_by_thread_reservation sub_thread_reserve_memory bytes) p) - bytes)) :
  let p1 := exec (covered_by_thread_reservation sub_thread_reserve_memory bytes) p in
  (eval (is_exceed_hard_mem_limit sub_thread_reserve_memory bytes) p = true
   <-> (process_memory_usage p1 + bytes >= mem_limit (mem_info p1)
        \/ sys_mem_available p1 - bytes < sys_mem_available_low_water_mark (mem_info p1)))
  /\ (bytes = 0 ->
      sys_mem_available_low_water_mark (mem_info p) <= sys_mem_available p ->
      (process_memory_usage p >= mem_limit (mem_info p) ->
       eval (is_exceed_hard_mem_limit sub_thread_reserve_memory 0) p = true)
      /\ (process_memory_usage p < mem_limit (mem_info p) ->
          eval (is_exceed_hard_mem_limit sub_thread_reserve_memory 0) p = false)).
Proof.
  intros p1. split.
  - rewrite <- (hard_limit_condition_exact bytes p1 Husage Havail).
    unfold eval in *. rewrite is_exceed_hard_mem_limit_run.
    subst p1. unfold exec.
    destruct (covered_by_thread_reservation _ bytes p) as [covered q].
    simpl in Hnot_covered. subst covered. simpl.
    destruct (hard_limit_condition bytes q); simpl; tauto.
  - intros _ Hlow.
    assert (Hrun : eval (is_exceed_hard_mem_limit sub_thread_reserve_memory 0) p
                   = hard_limit_condition 0 p).
    { unfold eval. rewrite is_exceed_hard_mem_limit_run, covered_nonpositive by lia.
      destruct (hard_limit_condition 0 p); reflexivity. }
    assert (Hiff := hard_limit_condition_exact 0 p).
    rewrite Z.add_0_r, Z.sub_0_r in Hiff.
    specialize (Hiff (process_memory_usage_in_range p) (sys_mem_available_in_range p)).
    rewrite Hrun. split.
    + intros Hge. apply Hiff. left. exact Hge.
    + intros Hlt. destruct (hard_limit_condition 0 p); [| reflexivity].
      destruct Hiff as [Hiff _]. specialize (Hiff eq_refl). lia.
Qed.

(** A request of 30 bytes against a reservation of 20 at the limit, and a
    zero-byte check far below the limit. *)
Lemma is_exceed_hard_mem_limit_iff_witness :
  eval (is_exceed_hard_mem_limit Ledger.sub_thread_reserve_memory 30) pressured_process = true
  /\ eval (is_exceed_hard_mem_limit Ledger.sub_thread_reserve_memory 0) idle_process = false.
Proof.
  assert (Hin_range : forall z, Int64.in_rangeb z = true -> Int64.in_range z)
    by (intros z; apply Int64Facts.in_rangeb_spec).
  split.
  - destruct (is_exceed_hard_mem_limit_iff
                Ledger.sub_thread_reserve_memory 30 pressured_process) as [Hiff _].
    + reflexivity.
    + apply Hin_range. reflexivity.
    + apply Hin_range. reflexivity.
    + apply Hiff. left. vm_compute. discriminate.
  - destruct (is_exceed_hard_mem_limit_iff
                Ledger.sub_thread_reserve_memory 0 idle_process) as [_ Hzero].
    + reflexivity.
    + apply Hin_range. reflexivity.
    + apply Hin_range. reflexivity.
    + apply Hzero.
      * reflexivity.
      * vm_compute. discriminate.
      * vm_compute. reflexivity.
Defined.

(** C1 as stated fails at [bytes = 0]: the thread holds 20 reserved bytes,
    the request of 0 bytes is within them, and both predicates answer
    true. *)
Lemma zero_bytes_within_reservation_is_checked :
  ~ (0 <= 0 <= thread_reserved_mem pressured_process ->
     eval (is_exceed_soft_mem_limit Ledger.sub_thread_reserve_memory 0) pressured_process = false
     /\ eval (is_exceed_hard_mem_limit Ledger.sub_thread_reserve_memory 0) pressured_process
        = false).
Proof.
  intros Hclaim.
  assert (Hfit : 0 <= 0 <= thread_reserved_mem pressured_process) by (vm_compute; split; discriminate).
  destruct (Hclaim Hfit) as [Hsoft _]. vm_compute in Hsoft. discriminate.
Qed.

(** C1, amended.  A thread whose reservation is at least [bytes], with
    [bytes > 0], is answered false by both predicates, whatever the usage
    estimate and the limits are. *)
Theorem covered_request_is_admitted (bytes : Z) (p : Process)
  (Hpositive : 0 < bytes) (Hfit : bytes <= thread_reserved_mem p) :
  eval (is_exceed_soft_mem_limit Ledger.sub_thread_reserve_memory bytes) p = false
  /\ eval (is_exceed_hard_mem_limit Ledger.sub_thread_reserve_memory bytes) p = false.
Proof.
  assert (Hcovered : eval (covered_by_thread_reservation
                             Ledger.sub_thread_reserve_memory bytes) p = true).
  { unfold eval, covered_by_thread_reservation.
    destruct (Z.ltb_spec 0 bytes); [| lia].
    unfold Ledger.sub_thread_reserve_memory, bind, gets, modify, ret,
      Ledger.shrink_process_reserved. simpl.
    replace (Z.max 0 (Z.min bytes (thread_reserved_mem p))) with bytes by lia.
    unfold Int64.sub. rewrite Z.sub_diag. reflexivity. }
  unfold eval in *.
  rewrite is_exceed_soft_mem_limit_run, is_exceed_hard_mem_limit_run.
  destruct (covered_by_thread_reservation _ bytes p) as [covered q].
  simpl in Hcovered. subst covered. split; reflexivity.
Qed.

Lemma covered_request_is_admitted_witness :
  eval (is_exceed_soft_mem_limit Ledger.sub_thread_reserve_memory 20) pressured_process = false
  /\ eval (is_exceed_hard_mem_limit Ledger.sub_thread_reserve_memory 20) pressured_process
     = false.
Proof.
  apply (covered_request_is_admitted 20 pressured_process).
  - lia.
  - vm_compute. discriminate.
Defined.



(** ** IColumn::append_data_by_selector_impl *)

Module ColumnFacts.

Import Column.
Local Open Scope N_scope.

Lemma vector_column_laws : ColumnLaws (list Z).
Proof.
  split.
  - reflexivity.
  - intros res src n. simpl. rewrite length_app, Nat.add_comm. simpl. lia.
Qed.

Section AppendBySelectorFacts.

Context {column : Type} `{ColumnLaws column}.
Variable dcheck_is_on : bool.

(** [count] iterations from index [i], all within the selector, insert
    [count] rows and return. *)
Lemma insert_selected_in_bounds (src : column) (selector : list N) (count : nat) :
  forall (i : N) (res : column),
    (N.to_nat i + count <= length selector)%nat ->
    exists res' : column,
      insert_selected src selector count i res = (res', Returned)
      /\ size res' = size res + N.of_nat count.
Proof.
  induction count as [| count IH]; intros i res Hbound.
  - exists res. split; [reflexivity | simpl; lia].
  - simpl insert_selected.
    destruct (nth_error selector (N.to_nat i)) as [row |] eqn:Hrow.
    + destruct (IH (i + 1) (insert_from res src row)) as [res' [Hrun Hsize]]; [lia |].
      exists res'. split; [exact Hrun |].
      rewrite Hsize, size_insert_from. lia.
    + apply nth_error_None in Hrow. lia.
Qed.

(** The loop raises no exception. *)
Lemma insert_selected_no_throw (src : column) (selector : list N) (count : nat) :
  forall (i : N) (res : column) (code : ErrorCode) (a b : N),
    snd (insert_selected src selector count i res) <> Threw code a b.
Proof.
  induction count as [| count IH]; intros i res code a b; simpl.
  - discriminate.
  - destruct (nth_error selector (N.to_nat i)); [apply IH | simpl; discriminate].
Qed.

End AppendBySelectorFacts.

End ColumnFacts.

(** C10.  When the selector has more entries than the source column has
    rows, [append_data_by_selector_impl] throws INTERNAL_ERROR carrying the
    two sizes and [res] is the column it was given; otherwise no exception
    is thrown, and for [begin <= end <= selector.size()] (the two DCHECKs)
    the call returns with [end - begin] more rows in [res]. *)
Theorem append_data_by_selector_impl_size_check
  {column : Type} `{Column.ColumnLaws column}
  (dcheck_is_on : bool) (src res : column) (selector : list N) (begin end_ : N) :
  let selector_size := N.of_nat (length selector) in
  ((Column.size src < selector_size)%N ->
   Column.append_data_by_selector_impl dcheck_is_on src res selector begin end_
   = (res, Column.Threw Column.INTERNAL_ERROR selector_size (Column.size src)))
  /\ ((selector_size <= Column.size src)%N ->
      (forall (code : Column.ErrorCode) (a b : N),
          snd (Column.append_data_by_selector_impl dcheck_is_on src res selector begin end_)
          <> Column.Threw code a b)
      /\ ((begin <= end_)%N -> (end_ <= selector_size)%N ->
          exists res' : column,
            Column.append_data_by_selector_impl dcheck_is_on src res selector begin end_
            = (res', Column.Returned)
            /\ Column.size res' = (Column.size res + (end_ - begin))%N)).
Proof.
  intros selector_size. unfold Column.append_data_by_selector_impl.
  fold selector_size. split.
  - intros Hlarger. destruct (N.ltb_spec (Column.size src) selector_size); [reflexivity | lia].
  - intros Hfits.
    destruct (N.ltb_spec (Column.size src) selector_size) as [Hlt | _]; [lia |].
    split.
    + intros code a b.
      destruct (negb (Column.DCHECK dcheck_is_on (begin <=? end_)%N)); [simpl; discriminate |].
      destruct (negb (Column.DCHECK dcheck_is_on (end_ <=? selector_size)%N));
        [simpl; discriminate |].
      apply ColumnFacts.insert_selected_no_throw.
    + intros Horder Hend.
      unfold Column.DCHECK.
      rewrite (proj2 (N.leb_le begin end_) Horder).
      rewrite (proj2 (N.leb_le end_ selector_size) Hend).
      rewrite !orb_true_r. simpl negb. cbv iota.
      destruct (ColumnFacts.insert_selected_in_bounds src selector
                  (N.to_nat (end_ - begin)) begin
                  (Column.reserve
                     (Column.size_add (Column.size res) (Column.size_sub end_ begin)) res))
        as [res' [Hrun Hsize]].
      * subst selector_size. lia.
      * exists res'. split; [exact Hrun |].
        rewrite Hsize, Column.size_reserve. lia.
Qed.

Lemma append_data_by_selector_impl_size_check_witness :
  Column.append_data_by_selector_impl true [10; 20; 30]%Z [7]%Z [2; 0; 1; 1]%N 0%N 2%N
  = ([7]%Z, Column.Threw Column.INTERNAL_ERROR 4%N 3%N)
  /\ exists res' : list Z,
       Column.append_data_by_selector_impl true [10; 20; 30]%Z [7]%Z [2; 0; 1]%N 1%N 3%N
       = (res', Column.Returned)
       /\ Column.size res' = (1 + (3 - 1))%N.
Proof.
  split.
  - apply (@append_data_by_selector_impl_size_check (list Z) Column.vector_column
             ColumnFacts.vector_column_laws true [10; 20; 30]%Z [7]%Z [2; 0; 1; 1]%N 0%N 2%N).
    vm_compute. reflexivity.
  - apply (@append_data_by_selector_impl_size_check (list Z) Column.vector_column
             ColumnFacts.vector_column_laws true [10; 20; 30]%Z [7]%Z [2; 0; 1]%N 1%N 3%N).
    + vm_compute. discriminate.
    + vm_compute. discriminate.
    + vm_compute. discriminate.
Defined.

(** * Further properties of the header *)

(** ** Usage estimator *)

Lemma estimates_exact (p : Process) :
  estimates_fit p ->
  process_memory_usage p
  = get_vm_rss p + refresh_interval_memory_growth (arbitrator p) + process_reserved_memory p
  /\ sys_mem_available p
     = _s_sys_mem_available (mem_info p) - refresh_interval_memory_growth (arbitrator p)
       - process_reserved_memory p.
Proof.
  intros (Hu1 & Hu2 & Ha1 & Ha2). unfold process_memory_usage, sys_mem_available.
  rewrite (Int64Facts.add_exact _ _ Hu1), (Int64Facts.sub_exact _ _ Ha1).
  rewrite (Int64Facts.add_exact _ _ Hu2), (Int64Facts.sub_exact _ _ Ha2).
  split; reflexivity.
Qed.

Lemma estimates_fit_sample : estimates_fit pressured_process /\ estimates_fit idle_process.
Proof. vm_compute. repeat split; discriminate. Qed.

(** X1.  The two estimates move against each other: whatever the growth
    since the last sample and the reserved memory are, usage plus
    available memory is the sampled RSS plus the sampled available
    memory. *)
Theorem usage_plus_available_is_sampled_total (p : Process) (Hfit : estimates_fit p) :
  process_memory_usage p + sys_mem_available p
  = get_vm_rss p + _s_sys_mem_available (mem_info p).
Proof.
  destruct (estimates_exact p Hfit) as [Husage Havail]. rewrite Husage, Havail. lia.
Qed.

Lemma usage_plus_available_is_sampled_total_witness :
  process_memory_usage pressured_process + sys_mem_available pressured_process = 1000 + 5000.
Proof.
  apply (usage_plus_available_is_sampled_total pressured_process).
  vm_compute. repeat split; discriminate.
Defined.



(** ** Admission gate *)

Lemma soft_limit_condition_exact (bytes : Z) (p : Process) :
  Int64.in_range (process_memory_usage p + bytes) ->
  Int64.in_range (sys_mem_available p - bytes) ->
  soft_limit_condition bytes p = true
  <-> (process_memory_usage p + bytes >= soft_mem_limit (mem_info p)
       \/ sys_mem_available p - bytes < sys_mem_available_warning_water_mark (mem_info p)).
Proof.
  intros Husage Havail. unfold soft_limit_condition.
  rewrite (Int64Facts.add_exact _ _ Husage), (Int64Facts.sub_exact _ _ Havail).
  rewrite orb_true_iff, Z.leb_le, Z.ltb_lt. lia.
Qed.

(** How a call of either predicate runs once the outcome of the
    reservation check is known. *)
Lemma eval_is_exceed_not_covered (sub_thread_reserve_memory : Z -> M Z)
  (bytes : Z) (p : Process) :
  eval (covered_by_thread_reservation sub_thread_reserve_memory bytes) p = false ->
  eval (is_exceed_soft_mem_limit sub_thread_reserve_memory bytes) p
  = soft_limit_condition bytes
      (exec (covered_by_thread_reservation sub_thread_reserve_memory bytes) p)
  /\ eval (is_exceed_hard_mem_limit sub_thread_reserve_memory bytes) p
     = hard_limit_condition bytes
         (exec (covered_by_thread_reservation sub_thread_reserve_memory bytes) p).
Proof.
  unfold eval, exec. rewrite is_exceed_soft_mem_limit_run, is_exceed_hard_mem_limit_run.
  destruct (covered_by_thread_reservation _ bytes p) as [covered q]. simpl.
  intros ->.
  destruct (soft_limit_condition bytes q), (hard_limit_condition bytes q); split; reflexivity.
Qed.

Lemma eval_is_exceed_covered (sub_thread_reserve_memory : Z -> M Z)
  (bytes : Z) (p : Process) :
  eval (covered_by_thread_reservation sub_thread_reserve_memory bytes) p = true ->
  eval (is_exceed_soft_mem_limit sub_thread_reserve_memory bytes) p = false
  /\ eval (is_exceed_hard_mem_limit sub_thread_reserve_memory bytes) p = false.
Proof.
  unfold eval. rewrite is_exceed_soft_mem_limit_run, is_exceed_hard_mem_limit_run.
  destruct (covered_by_thread_reservation _ bytes p) as [covered q]. simpl.
  intros ->. split; reflexivity.
Qed.

(** X3.  When the request is not covered by the thread's reservation,
    [is_exceed_soft_mem_limit(bytes)] is true exactly when
    [process_memory_usage() + bytes >= soft_mem_limit] or
    [sys_mem_available() - bytes < warning_water_mark], the estimates read
    after the reservation check and the two operations not overflowing. *)
Theorem is_exceed_soft_mem_limit_iff
  (sub_thread_reserve_memory : Z -> M Z) (bytes : Z) (p : Process)
  (Hnot_covered :
     eval (covered_by_thread_reservation sub_thread_reserve_memory bytes) p = false)
  (Husage : Int64.in_range
     (process_memory_usage
        (exec (covered_by_thread_reservation sub_thread_reserve_memory bytes) p) + bytes))
  (Havail : Int64.in_range
     (sys_mem_available
        (exec (covered_by_thread_reservation sub_thread_reserve_memory bytes) p) - bytes)) :
  let p1 := exec (covered_by_thread_reservation sub_thread_reserve_memory bytes) p in
  eval (is_exceed_soft_mem_limit sub_thread_reserve_memory bytes) p = true
  <-> (process_memory_usage p1 + bytes >= soft_mem_limit (mem_info p1)
       \/ sys_mem_available p1 - bytes
          < sys_mem_available_warning_water_mark (mem_info p1)).
Proof.
  intros p1.
  rewrite <- (soft_limit_condition_exact bytes p1 Husage Havail).
  destruct (eval_is_exceed_not_covered _ bytes p Hnot_covered) as [Hsoft _].
  rewrite Hsoft. reflexivity.
Qed.

Lemma is_exceed_soft_mem_limit_iff_witness :
  eval (is_exceed_soft_mem_limit Ledger.sub_thread_reserve_memory 2000) idle_process = true.
Proof.
  apply (is_exceed_soft_mem_limit_iff Ledger.sub_thread_reserve_memory 2000 idle_process).
  - reflexivity.
  - vm_compute. split; discriminate.
  - vm_compute. split; discriminate.
  - left. vm_compute. discriminate.
Defined.

(** X4.  The soft tier answers first: when the soft limit is not above
    the hard limit and the warning water mark is not below the low water
    mark, every call that [is_exceed_hard_mem_limit] answers true is
    answered true by [is_exceed_soft_mem_limit] in the same state, and a
    false from the soft predicate means a false from the hard one. *)
Theorem hard_exceeded_implies_soft_exceeded
  (sub_thread_reserve_memory : Z -> M Z) (bytes : Z) (p : Process)
  (Hlimits :
     soft_mem_limit
       (mem_info (exec (covered_by_thread_reservation sub_thread_reserve_memory bytes) p))
     <= mem_limit
          (mem_info (exec (covered_by_thread_reservation sub_thread_reserve_memory bytes) p)))
  (Hmarks :
     sys_mem_available_low_water_mark
       (mem_info (exec (covered_by_thread_reservation sub_thread_reserve_memory bytes) p))
     <= sys_mem_available_warning_water_mark
          (mem_info (exec (covered_by_thread_reservation sub_thread_reserve_memory bytes) p))) :
  (eval (is_exceed_hard_mem_limit sub_thread_reserve_memory bytes) p = true ->
   eval (is_exceed_soft_mem_limit sub_thread_reserve_memory bytes) p = true)
  /\ (eval (is_exceed_soft_mem_limit sub_thread_reserve_memory bytes) p = false ->
      eval (is_exceed_hard_mem_limit sub_thread_reserve_memory bytes) p = false).
Proof.
  assert (Himp : eval (is_exceed_hard_mem_limit sub_thread_reserve_memory bytes) p = true ->
                 eval (is_exceed_soft_mem_limit sub_thread_reserve_memory bytes) p = true).
  { destruct (eval (covered_by_thread_reservation sub_thread_reserve_memory bytes) p)
      eqn:Hcovered.
    - destruct (eval_is_exceed_covered _ bytes p Hcovered) as [_ Hhard].
      rewrite Hhard. discriminate.
    - destruct (eval_is_exceed_not_covered _ bytes p Hcovered) as [Hsoft Hhard].
      rewrite Hsoft, Hhard. unfold soft_limit_condition, hard_limit_condition.
      rewrite !orb_true_iff, !Z.leb_le, !Z.ltb_lt. lia. }
  split; [exact Himp |].
  intros Hsoft.
  destruct (eval (is_exceed_hard_mem_limit sub_thread_reserve_memory bytes) p);
    [| reflexivity].
  rewrite (Himp eq_refl) in Hsoft. discriminate.
Qed.

Lemma hard_exceeded_implies_soft_exceeded_witness :
  eval (is_exceed_soft_mem_limit Ledger.sub_thread_reserve_memory 30) pressured_process = true
  /\ eval (is_exceed_hard_mem_limit Ledger.sub_thread_reserve_memory 5) idle_process = false.
Proof.
  split.
  - apply (hard_exceeded_implies_soft_exceeded
             Ledger.sub_thread_reserve_memory 30 pressured_process).
    + vm_compute. discriminate.
    + vm_compute. discriminate.
    + reflexivity.
  - apply (hard_exceeded_implies_soft_exceeded
             Ledger.sub_thread_reserve_memory 5 idle_process).
    + vm_compute. discriminate.
    + vm_compute. discriminate.
    + reflexivity.
Defined.

(** X5.  Whatever [sub_thread_reserve_memory] is: when [bytes > 0] and
    it returns a remainder that is not positive, both predicates return
    false without reading a limit and without logging; the state they
    leave is the state [sub_thread_reserve_memory] left. *)
Theorem nonpositive_remainder_is_admitted
  (sub_thread_reserve_memory : Z -> M Z) (bytes : Z) (p : Process)
  (Hpositive : 0 < bytes)
  (Hremainder : eval (sub_thread_reserve_memory bytes) p <= 0) :
  is_exceed_soft_mem_limit sub_thread_reserve_memory bytes p
  = (false, exec (sub_thread_reserve_memory bytes) p)
  /\ is_exceed_hard_mem_limit sub_thread_reserve_memory bytes p
     = (false, exec (sub_thread_reserve_memory bytes) p).
Proof.
  assert (Hcovered : covered_by_thread_reservation sub_thread_reserve_memory bytes p
                     = (true, exec (sub_thread_reserve_memory bytes) p)).
  { unfold covered_by_thread_reservation, bind, ret, eval, exec in *.
    destruct (Z.ltb_spec 0 bytes); [| lia].
    destruct (sub_thread_reserve_memory bytes p) as [remaining q]. simpl in *.
    destruct (Z.leb_spec remaining 0); [reflexivity | lia]. }
  rewrite is_exceed_soft_mem_limit_run, is_exceed_hard_mem_limit_run, Hcovered.
  split; reflexivity.
Qed.

Lemma nonpositive_remainder_is_admitted_witness :
  is_exceed_hard_mem_limit (fun bytes => ret (bytes - 64)) 64 pressured_process
  = (false, pressured_process).
Proof.
  apply (nonpositive_remainder_is_admitted (fun bytes => ret (bytes - 64)) 64 pressured_process).
  - lia.
  - vm_compute. discriminate.
Defined.

Lemma eval_is_exceed_default (sub_thread_reserve_memory : Z -> M Z) (p : Process) :
  eval (is_exceed_soft_mem_limit sub_thread_reserve_memory 0) p
  = ((soft_mem_limit (mem_info p) <=? process_memory_usage p)
     || (sys_mem_available p <? sys_mem_available_warning_water_mark (mem_info p)))
  /\ eval (is_exceed_hard_mem_limit sub_thread_reserve_memory 0) p
     = ((mem_limit (mem_info p) <=? process_memory_usage p)
        || (sys_mem_available p <? sys_mem_available_low_water_mark (mem_info p))).
Proof.
  assert (Hnot_covered :
            covered_by_thread_reservation sub_thread_reserve_memory 0 p = (false, p))
    by (apply covered_nonpositive; lia).
  destruct (eval_is_exceed_not_covered sub_thread_reserve_memory 0 p) as [Hsoft Hhard].
  { unfold eval. rewrite Hnot_covered. reflexivity. }
  unfold exec in Hsoft, Hhard. rewrite Hnot_covered in Hsoft, Hhard. simpl in Hsoft, Hhard.
  rewrite Hsoft, Hhard. unfold soft_limit_condition, hard_limit_condition.
  rewrite (Int64Facts.add_exact (process_memory_usage p) 0),
          (Int64Facts.sub_exact (sys_mem_available p) 0).
  - rewrite Z.add_0_r, Z.sub_0_r. split; reflexivity.
  - rewrite Z.sub_0_r. apply sys_mem_available_in_range.
  - rewrite Z.add_0_r. apply process_memory_usage_in_range.
Qed.

(** X6.  Reserved memory counts against both limits: if a check with the
    default argument answers true, it still answers true in the state that
    differs only by a larger reserved-memory ledger (the estimates not
    overflowing in either state). *)
Theorem more_reserved_memory_keeps_exceeded
  (sub_thread_reserve_memory : Z -> M Z) (p : Process) (reserved' : Z)
  (Hmore : process_reserved_memory p <= reserved')
  (Hfit : estimates_fit p)
  (Hfit' : estimates_fit (with_reserved reserved' p)) :
  (eval (is_exceed_soft_mem_limit sub_thread_reserve_memory 0) p = true ->
   eval (is_exceed_soft_mem_limit sub_thread_reserve_memory 0) (with_reserved reserved' p)
   = true)
  /\ (eval (is_exceed_hard_mem_limit sub_thread_reserve_memory 0) p = true ->
      eval (is_exceed_hard_mem_limit sub_thread_reserve_memory 0) (with_reserved reserved' p)
      = true).
Proof.
  destruct (eval_is_exceed_default sub_thread_reserve_memory p) as [Hsoft Hhard].
  destruct (eval_is_exceed_default sub_thread_reserve_memory (with_reserved reserved' p))
    as [Hsoft' Hhard'].
  destruct (estimates_exact p Hfit) as [Husage Havail].
  destruct (estimates_exact _ Hfit') as [Husage' Havail'].
  change (mem_info (with_reserved reserved' p)) with (mem_info p) in *.
  change (get_vm_rss (with_reserved reserved' p)) with (get_vm_rss p) in *.
  change (process_reserved_memory (with_reserved reserved' p)) with reserved' in *.
  change (refresh_interval_memory_growth (arbitrator (with_reserved reserved' p)))
    with (refresh_interval_memory_growth (arbitrator p)) in *.
  rewrite Hsoft, Hhard, Hsoft', Hhard'.
  rewrite !orb_true_iff, !Z.leb_le, !Z.ltb_lt. lia.
Qed.

Lemma more_reserved_memory_keeps_exceeded_witness :
  eval (is_exceed_hard_mem_limit Ledger.sub_thread_reserve_memory 0)
       (with_reserved 500 pressured_process) = true.
Proof.
  destruct (more_reserved_memory_keeps_exceeded
              Ledger.sub_thread_reserve_memory pressured_process 500) as [_ Hhard].
  - vm_compute. discriminate.
  - vm_compute. repeat split; discriminate.
  - vm_compute. repeat split; discriminate.
  - apply Hhard. reflexivity.
Defined.

(** ** Pressure notifiers *)

Lemma notify_memtable_memory_refresh_twice (p : Process) :
  exec notify_memtable_memory_refresh (exec notify_memtable_memory_refresh p)
  = exec notify_memtable_memory_refresh p.
Proof. reflexivity. Qed.

(** Repeating a call that changes nothing the second time. *)
Lemma repeat_call_idempotent (c : M unit) :
  (forall q, exec c (exec c q) = exec c q) ->
  forall (n : nat) (q : Process), exec (repeat_call (S n) c) q = exec c q.
Proof.
  intros Hidem n. induction n as [| n IH]; intros q.
  - change (repeat_call 1 c) with (c ;;; ret tt). rewrite exec_bind. reflexivity.
  - change (repeat_call (S (S n)) c) with (c ;;; repeat_call (S n) c).
    rewrite exec_bind, IH. apply Hidem.
Qed.

(** X7.  [notify_memtable_memory_refresh()] coalesces like the cache
    notifier: any positive number of consecutive calls leaves the state of
    one call, which is the starting state with [true] stored into
    [memtable_memory_refresh_notify].  The two notifiers are independent:
    neither writes the other's flag, the order of a cache and a memtable
    notification does not matter, and neither of them moves the ledger,
    the usage estimate or the available-memory estimate. *)
Theorem notifiers_coalesce_independently (n : nat) (p : Process) :
  exec (repeat_call (S n) notify_memtable_memory_refresh) p
  = exec notify_memtable_memory_refresh p
  /\ exec notify_memtable_memory_refresh p
     = set_arbitrator (set_memtable_memory_refresh_notify true (arbitrator p)) p
  /\ memtable_memory_refresh_notify
       (arbitrator (exec (repeat_call (S n) notify_memtable_memory_refresh) p)) = true
  /\ cache_adjust_capacity_notify
       (arbitrator (exec (repeat_call (S n) notify_memtable_memory_refresh) p))
     = cache_adjust_capacity_notify (arbitrator p)
  /\ memtable_memory_refresh_notify
       (arbitrator (exec (repeat_call (S n) notify_cache_adjust_capacity) p))
     = memtable_memory_refresh_notify (arbitrator p)
  /\ exec notify_cache_adjust_capacity (exec notify_memtable_memory_refresh p)
     = exec notify_memtable_memory_refresh (exec notify_cache_adjust_capacity p)
  /\ exec notify_cache_adjust_capacity (exec notify_memtable_memory_refresh p)
     = set_arbitrator
         (set_cache_adjust_capacity_notify true
            (set_memtable_memory_refresh_notify true (arbitrator p))) p
  /\ process_reserved_memory (exec (repeat_call (S n) notify_memtable_memory_refresh) p)
     = process_reserved_memory p
  /\ process_memory_usage (exec (repeat_call (S n) notify_memtable_memory_refresh) p)
     = process_memory_usage p
  /\ sys_mem_available (exec (repeat_call (S n) notify_memtable_memory_refresh) p)
     = sys_mem_available p
  /\ process_reserved_memory (exec (repeat_call (S n) notify_cache_adjust_capacity) p)
     = process_reserved_memory p
  /\ process_memory_usage (exec (repeat_call (S n) notify_cache_adjust_capacity) p)
     = process_memory_usage p
  /\ sys_mem_available (exec (repeat_call (S n) notify_cache_adjust_capacity) p)
     = sys_mem_available p.
Proof.
  assert (Hmemtable := repeat_call_idempotent notify_memtable_memory_refresh
                         notify_memtable_memory_refresh_twice n).
  assert (Hcache := repeat_call_idempotent notify_cache_adjust_capacity
                      notify_cache_adjust_capacity_twice n).
  rewrite Hmemtable, Hcache. repeat split.
Qed.

(** * Further properties of column_impl.h *)

Module ColumnMoreFacts.

Import Column.
Local Open Scope N_scope.

Lemma skipn_nth_error_cons {A : Type} (l : list A) :
  forall (k : nat) (x : A), nth_error l k = Some x -> skipn k l = x :: skipn (S k) l.
Proof.
  induction l as [| y l IH]; intros [| k] x Hnth; simpl in Hnth; try discriminate.
  - injection Hnth as ->. reflexivity.
  - apply (IH k x Hnth).
Qed.

Lemma nth_error_combine_some {A B : Type} (l : list A) :
  forall (l' : list B) (k : nat) (a : A) (b : B),
    nth_error l k = Some a -> nth_error l' k = Some b ->
    nth_error (combine l l') k = Some (a, b).
Proof.
  induction l as [| x l IH]; intros [| y l'] [| k] a b Ha Hb;
    simpl in *; try discriminate.
  - injection Ha as ->. injection Hb as ->. reflexivity.
  - apply IH; assumption.
Qed.

Section Loops.

Context {column : Type} `{ColumnOps column}.

(** The selector loop is a left fold over the slice it walks. *)
Lemma insert_selected_fold (src : column) (selector : list N) (count : nat) :
  forall (i : N) (res : column),
    (N.to_nat i + count <= length selector)%nat ->
    insert_selected src selector count i res
    = (fold_left (fun r row => insert_from r src row)
                 (firstn count (skipn (N.to_nat i) selector)) res,
       Returned).
Proof.
  induction count as [| count IH]; intros i res Hbound.
  - reflexivity.
  - simpl insert_selected.
    destruct (nth_error selector (N.to_nat i)) as [row |] eqn:Hrow.
    + rewrite (skipn_nth_error_cons selector _ _ Hrow). simpl firstn. simpl fold_left.
      rewrite IH by lia.
      replace (N.to_nat (i + 1)) with (S (N.to_nat i)) by lia. reflexivity.
    + apply nth_error_None in Hrow. lia.
Qed.

(** A walk that leaves the selector ends out of bounds. *)
Lemma insert_selected_past_end (src : column) (selector : list N) (count : nat) :
  forall (i : N) (res : column),
    (0 < count)%nat -> (length selector < N.to_nat i + count)%nat ->
    snd (insert_selected src selector count i res) = OutOfBounds.
Proof.
  induction count as [| count IH]; intros i res Hcount Hpast; [lia |].
  simpl insert_selected.
  destruct (nth_error selector (N.to_nat i)) as [row |] eqn:Hrow; [| reflexivity].
  assert (Hin : (N.to_nat i < length selector)%nat)
    by (apply nth_error_Some; rewrite Hrow; discriminate).
  apply IH; lia.
Qed.

Lemma insert_from_each_fold (srcs : list column) (positions : list N) (count : nat) :
  forall (i : N) (this : column),
    (N.to_nat i + count <= length srcs)%nat ->
    (N.to_nat i + count <= length positions)%nat ->
    insert_from_each srcs positions count i this
    = (fold_left (fun r sp => insert_from r (fst sp) (snd sp))
                 (firstn count (skipn (N.to_nat i) (combine srcs positions))) this,
       Returned).
Proof.
  induction count as [| count IH]; intros i this Hsrcs Hpositions.
  - reflexivity.
  - simpl insert_from_each.
    destruct (nth_error srcs (N.to_nat i)) as [src |] eqn:Hsrc;
      [| apply nth_error_None in Hsrc; lia].
    destruct (nth_error positions (N.to_nat i)) as [position |] eqn:Hposition;
      [| apply nth_error_None in Hposition; lia].
    rewrite (skipn_nth_error_cons _ _ _ (nth_error_combine_some _ _ _ _ _ Hsrc Hposition)).
    simpl firstn. simpl fold_left.
    rewrite IH by lia.
    replace (N.to_nat (i + 1)) with (S (N.to_nat i)) by lia. reflexivity.
Qed.

Lemma insert_from_each_past_end (srcs : list column) (positions : list N) (count : nat) :
  forall (i : N) (this : column),
    (0 < count)%nat -> (length positions < N.to_nat i + count)%nat ->
    snd (insert_from_each srcs positions count i this) = OutOfBounds.
Proof.
  induction count as [| count IH]; intros i this Hcount Hpast; [lia |].
  simpl insert_from_each.
  destruct (nth_error srcs (N.to_nat i)) as [src |]; [| reflexivity].
  destruct (nth_error positions (N.to_nat i)) as [position |] eqn:Hposition; [| reflexivity].
  assert (Hin : (N.to_nat i < length positions)%nat)
    by (apply nth_error_Some; rewrite Hposition; discriminate).
  apply IH; lia.
Qed.

Lemma fold_insert_from_size `{!ColumnLaws column} {A : Type}
  (f : A -> column * N) (l : list A) :
  forall this : column,
    size (fold_left (fun r a => insert_from r (fst (f a)) (snd (f a))) l this)
    = size this + N.of_nat (length l).
Proof.
  induction l as [| a l IH]; intros this; simpl fold_left.
  - simpl. lia.
  - rewrite IH, size_insert_from. simpl length. lia.
Qed.

End Loops.

End ColumnMoreFacts.

(** X8.  For a selector that fits the column and [begin <= end <=
    selector.size()], the call reserves room for the rows already in [res]
    plus [end - begin] (not for [num_rows]) and then inserts the rows
    [selector[begin]], ..., [selector[end - 1]] of the source, in that
    order. *)
Theorem append_data_by_selector_impl_inserts_slice
  {column : Type} `{Column.ColumnOps column}
  (dcheck_is_on : bool) (src res : column) (selector : list N) (begin end_ : N)
  (Hfits : (N.of_nat (length selector) <= Column.size src)%N)
  (Horder : (begin <= end_)%N)
  (Hend : (end_ <= N.of_nat (length selector))%N)
  (Hroom : (end_ < Column.size_t_modulus
            /\ Column.size res + (end_ - begin) < Column.size_t_modulus)%N) :
  Column.append_data_by_selector_impl dcheck_is_on src res selector begin end_
  = (fold_left (fun r row => Column.insert_from r src row)
               (firstn (N.to_nat (end_ - begin)) (skipn (N.to_nat begin) selector))
               (Column.reserve (Column.size res + (end_ - begin))%N res),
     Column.Returned).
Proof.
  unfold Column.append_data_by_selector_impl, Column.DCHECK.
  destruct (N.ltb_spec (Column.size src) (N.of_nat (length selector))); [lia |].
  rewrite (proj2 (N.leb_le _ _) Horder), (proj2 (N.leb_le _ _) Hend), !orb_true_r.
  simpl negb. cbv iota.
  rewrite ColumnMoreFacts.insert_selected_fold by lia.
  replace (Column.size_add (Column.size res) (Column.size_sub end_ begin))
    with (Column.size res + (end_ - begin))%N; [reflexivity |].
  destruct Hroom as [Hend_small Hroom].
  unfold Column.size_add, Column.size_sub.
  assert (Hmod : (0 < Column.size_t_modulus)%N) by (vm_compute; reflexivity).
  rewrite (N.mod_small begin) by lia.
  replace (end_ + Column.size_t_modulus - begin)%N
    with ((end_ - begin) + 1 * Column.size_t_modulus)%N by lia.
  rewrite N.Div0.mod_add.
  rewrite (N.mod_small (end_ - begin)) by lia.
  rewrite N.mod_small by lia. reflexivity.
Qed.

Lemma append_data_by_selector_impl_inserts_slice_witness :
  Column.append_data_by_selector_impl true [10; 20; 30]%Z [7]%Z [2; 0; 1]%N 1%N 3%N
  = ([7; 10; 20]%Z, Column.Returned).
Proof.
  apply (@append_data_by_selector_impl_inserts_slice (list Z) Column.vector_column
           true [10; 20; 30]%Z [7]%Z [2; 0; 1]%N 1%N 3%N).
  - vm_compute. discriminate.
  - vm_compute. discriminate.
  - vm_compute. discriminate.
  - vm_compute. split; reflexivity.
Defined.

(** X9.  The overload without a range never fails a DCHECK and never
    reads past the selector, in a debug and in a release build alike: it
    throws when the selector has more entries than the source has rows,
    and otherwise returns after inserting the row of every selector entry,
    first to last. *)
Theorem append_data_by_selector_impl_all_outcome
  {column : Type} `{Column.ColumnOps column}
  (dcheck_is_on : bool) (src res : column) (selector : list N)
  (Hsize : (N.of_nat (length selector) < Column.size_t_modulus)%N) :
  ((Column.size src < N.of_nat (length selector))%N ->
   Column.append_data_by_selector_impl_all dcheck_is_on src res selector
   = (res, Column.Threw Column.INTERNAL_ERROR (N.of_nat (length selector)) (Column.size src)))
  /\ ((N.of_nat (length selector) <= Column.size src)%N ->
      Column.append_data_by_selector_impl_all dcheck_is_on src res selector
      = (fold_left (fun r row => Column.insert_from r src row) selector
           (Column.reserve
              (Column.size_add (Column.size res) (N.of_nat (length selector))) res),
         Column.Returned)).
Proof.
  unfold Column.append_data_by_selector_impl_all, Column.append_data_by_selector_impl,
    Column.DCHECK.
  split; intros Hcompare.
  - destruct (N.ltb_spec (Column.size src) (N.of_nat (length selector)));
      [reflexivity | lia].
  - destruct (N.ltb_spec (Column.size src) (N.of_nat (length selector))); [lia |].
    rewrite (proj2 (N.leb_le 0 (N.of_nat (length selector))) (N.le_0_l _)).
    rewrite N.leb_refl, !orb_true_r. simpl negb. cbv iota.
    rewrite ColumnMoreFacts.insert_selected_fold by lia.
    rewrite N.sub_0_r, Nat2N.id. simpl skipn. rewrite firstn_all.
    replace (Column.size_sub (N.of_nat (length selector)) 0)
      with (N.of_nat (length selector)); [reflexivity |].
    unfold Column.size_sub.
    assert (Hmod : (0 < Column.size_t_modulus)%N) by (vm_compute; reflexivity).
    rewrite (N.mod_small 0) by exact Hmod.
    rewrite N.sub_0_r.
    replace (N.of_nat (length selector) + Column.size_t_modulus)%N
      with (N.of_nat (length selector) + 1 * Column.size_t_modulus)%N by lia.
    rewrite N.Div0.mod_add, N.mod_small by exact Hsize. reflexivity.
Qed.

Lemma append_data_by_selector_impl_all_outcome_witness :
  Column.append_data_by_selector_impl_all false [10; 20; 30]%Z [7]%Z [2; 0; 1; 1]%N
  = ([7]%Z, Column.Threw Column.INTERNAL_ERROR 4%N 3%N)
  /\ Column.append_data_by_selector_impl_all true [10; 20; 30]%Z [7]%Z [2; 0]%N
     = ([7; 30; 10]%Z, Column.Returned).
Proof.
  split.
  - apply (@append_data_by_selector_impl_all_outcome (list Z) Column.vector_column
             false [10; 20; 30]%Z [7]%Z [2; 0; 1; 1]%N).
    + vm_compute. reflexivity.
    + vm_compute. reflexivity.
  - apply (@append_data_by_selector_impl_all_outcome (list Z) Column.vector_column
             true [10; 20; 30]%Z [7]%Z [2; 0]%N).
    + vm_compute. reflexivity.
    + vm_compute. discriminate.
Defined.

(** X10.  In a release build the two DCHECKs are the only guard of the
    range.  With [end < begin] the call returns without inserting a row,
    having asked [reserve] for the wrapped count; with [begin < end] and
    [end] past the selector the loop reads [selector] out of bounds. *)
Theorem append_data_by_selector_impl_unchecked_range
  {column : Type} `{Column.ColumnOps column}
  (src res : column) (selector : list N) (begin end_ : N)
  (Hfits : (N.of_nat (length selector) <= Column.size src)%N) :
  ((end_ < begin)%N ->
   Column.append_data_by_selector_impl false src res selector begin end_
   = (Column.reserve (Column.size_add (Column.size res) (Column.size_sub end_ begin)) res,
      Column.Returned))
  /\ ((begin < end_)%N -> (N.of_nat (length selector) < end_)%N ->
      snd (Column.append_data_by_selector_impl false src res selector begin end_)
      = Column.OutOfBounds).
Proof.
  unfold Column.append_data_by_selector_impl, Column.DCHECK.
  destruct (N.ltb_spec (Column.size src) (N.of_nat (length selector))); [lia |].
  simpl negb. simpl orb. cbv iota. split.
  - intros Hreversed.
    replace (N.to_nat (end_ - begin)) with 0%nat by lia. reflexivity.
  - intros Horder Hpast.
    apply ColumnMoreFacts.insert_selected_past_end; lia.
Qed.

Lemma append_data_by_selector_impl_unchecked_range_witness :
  Column.append_data_by_selector_impl false [10; 20; 30]%Z [7]%Z [2; 0; 1]%N 2%N 1%N
  = ([7]%Z, Column.Returned)
  /\ Column.append_data_by_selector_impl false [10; 20; 30]%Z [7]%Z [2; 0; 1]%N 2%N 5%N
     = ([7; 20]%Z, Column.OutOfBounds).
Proof.
  destruct (@append_data_by_selector_impl_unchecked_range (list Z) Column.vector_column
              [10; 20; 30]%Z [7]%Z [2; 0; 1]%N 2%N 1%N) as [Hreversed _].
  - vm_compute. discriminate.
  - split.
    + apply Hreversed. reflexivity.
    + reflexivity.
Defined.

(** X11.  In a debug build a selector that fits the column but a range
    with [end < begin] or [end > selector.size()] stops at the DCHECK:
    nothing is reserved or inserted. *)
Theorem append_data_by_selector_impl_dcheck
  {column : Type} `{Column.ColumnOps column}
  (src res : column) (selector : list N) (begin end_ : N)
  (Hfits : (N.of_nat (length selector) <= Column.size src)%N)
  (Hrange : (end_ < begin \/ N.of_nat (length selector) < end_)%N) :
  Column.append_data_by_selector_impl true src res selector begin end_
  = (res, Column.Aborted).
Proof.
  unfold Column.append_data_by_selector_impl, Column.DCHECK.
  destruct (N.ltb_spec (Column.size src) (N.of_nat (length selector))); [lia |].
  simpl negb. simpl orb.
  destruct (N.leb_spec begin end_) as [Horder | Hreversed]; [| reflexivity].
  destruct (N.leb_spec end_ (N.of_nat (length selector))); [lia | reflexivity].
Qed.

Lemma append_data_by_selector_impl_dcheck_witness :
  Column.append_data_by_selector_impl true [10; 20; 30]%Z [7]%Z [2; 0; 1]%N 2%N 5%N
  = ([7]%Z, Column.Aborted).
Proof.
  apply (@append_data_by_selector_impl_dcheck (list Z) Column.vector_column
           [10; 20; 30]%Z [7]%Z [2; 0; 1]%N 2%N 5%N).
  - vm_compute. discriminate.
  - right. vm_compute. reflexivity.
Defined.

(** X12.  With a position for every source column,
    [insert_from_multi_column_impl] returns after inserting row
    [positions[i]] of [srcs[i]] for every [i], first to last, so the column
    has [srcs.size()] more rows; positions beyond [srcs.size()] are
    ignored. *)
Theorem insert_from_multi_column_impl_inserts_each
  {column : Type} `{Column.ColumnLaws column}
  (this : column) (srcs : list column) (positions : list N)
  (Hpositions : (length srcs <= length positions)%nat) :
  Column.insert_from_multi_column_impl this srcs positions
  = (fold_left (fun r sp => Column.insert_from r (fst sp) (snd sp))
               (combine srcs positions)
               (Column.reserve
                  (Column.size_add (Column.size this) (N.of_nat (length srcs))) this),
     Column.Returned)
  /\ Column.size (fst (Column.insert_from_multi_column_impl this srcs positions))
     = (Column.size this + N.of_nat (length srcs))%N.
Proof.
  assert (Hrun : Column.insert_from_multi_column_impl this srcs positions
            = (fold_left (fun r sp => Column.insert_from r (fst sp) (snd sp))
                 (combine srcs positions)
                 (Column.reserve
                    (Column.size_add (Column.size this) (N.of_nat (length srcs))) this),
               Column.Returned)).
  { unfold Column.insert_from_multi_column_impl.
    rewrite ColumnMoreFacts.insert_from_each_fold by (simpl; lia).
    simpl skipn. rewrite firstn_all2; [reflexivity |].
    rewrite length_combine. lia. }
  split; [exact Hrun |].
  rewrite Hrun. simpl fst.
  rewrite (ColumnMoreFacts.fold_insert_from_size (fun sp => sp)).
  rewrite Column.size_reserve, length_combine.
  rewrite Nat.min_l by exact Hpositions. reflexivity.
Qed.

Lemma insert_from_multi_column_impl_inserts_each_witness :
  Column.insert_from_multi_column_impl [7]%Z [[10; 20]; [30; 40; 50]]%Z [1; 2; 0]%N
  = ([7; 20; 50]%Z, Column.Returned).
Proof.
  apply (@insert_from_multi_column_impl_inserts_each (list Z) Column.vector_column
           ColumnFacts.vector_column_laws [7]%Z [[10; 20]; [30; 40; 50]]%Z [1; 2; 0]%N).
  vm_compute. lia.
Defined.

(** X13.  [insert_from_multi_column_impl] compares no sizes and throws
    nothing: with fewer positions than source columns it reads
    [positions] out of bounds, and with no source column it only
    reserves. *)
Theorem insert_from_multi_column_impl_unchecked
  {column : Type} `{Column.ColumnOps column}
  (this : column) (srcs : list column) (positions : list N) :
  ((length positions < length srcs)%nat ->
   snd (Column.insert_from_multi_column_impl this srcs positions) = Column.OutOfBounds)
  /\ (forall (code : Column.ErrorCode) (a b : N),
        snd (Column.insert_from_multi_column_impl this srcs positions)
        <> Column.Threw code a b)
  /\ snd (Column.insert_from_multi_column_impl this srcs positions) <> Column.Aborted
  /\ Column.insert_from_multi_column_impl this [] positions
     = (Column.reserve (Column.size_add (Column.size this) 0) this, Column.Returned).
Proof.
  destruct (Nat.le_gt_cases (length srcs) (length positions)) as [Henough | Hshort].
  - assert (Hrun : snd (Column.insert_from_multi_column_impl this srcs positions)
                   = Column.Returned).
    { unfold Column.insert_from_multi_column_impl.
      rewrite ColumnMoreFacts.insert_from_each_fold by (simpl; lia). reflexivity. }
    rewrite Hrun. repeat split; try discriminate. lia.
  - assert (Hrun : snd (Column.insert_from_multi_column_impl this srcs positions)
                   = Column.OutOfBounds).
    { unfold Column.insert_from_multi_column_impl.
      apply ColumnMoreFacts.insert_from_each_past_end; simpl; lia. }
    rewrite Hrun. repeat split; discriminate.
Qed.

Lemma insert_from_multi_column_impl_unchecked_witness :
  snd (Column.insert_from_multi_column_impl [7]%Z [[10; 20]; [30; 40; 50]]%Z [1]%N)
  = Column.OutOfBounds.
Proof.
  destruct (@insert_from_multi_column_impl_unchecked (list Z) Column.vector_column
              [7]%Z [[10; 20]; [30; 40; 50]]%Z [1]%N) as [Hshort _].
  apply Hshort. vm_compute. lia.
Defined.
